(** * Weak-supervision tutorial, part 3: POS-tag utilities

    A shallow embedding of [part_3_eng_pos_tags/scripts/utils.py]:

    - [penntreebank2universal], the Penn-Treebank to universal tag mapper;
    - [load_data_split], the corpus loader that sets the gold spans;
    - [tag_all], the pass that threads documents through labeling functions.

    Python strings are modelled as [string]; Python integers as [Z];
    documents handed to [tag_all] are objects in a store ([gmap] from
    object identities to document values), because the labeling functions
    may mutate them and may return either their argument or a new object. *)

From stdpp Require Import base option list gmap strings sorting.
From Stdlib Require Import Ascii ZArith Lia.

Local Open Scope string_scope.
Local Open Scope list_scope.
Local Open Scope nat_scope.

(* ===================================================================== *)
(** * Part I: definitions *)
(* ===================================================================== *)

(** ** Strings: the [str] operations the mapper uses *)

(** [s.startswith(p)] for a single prefix [p]. *)
Fixpoint str_startswith (s p : string) {struct p} : bool :=
  match p with
  | EmptyString => true
  | String a p' =>
      match s with
      | EmptyString => false
      | String b s' => if Ascii.eqb a b then str_startswith s' p' else false
      end
  end.

(** [s.startswith((p1, p2, ...))]: true when one of the prefixes matches. *)
Definition str_startswith_any (s : string) (ps : list string) : bool :=
  existsb (str_startswith s) ps.

(** [s.split(sep)] for a one-character separator.  The result is never
    empty: a string without the separator gives a one-element list, and
    [n] separators give [n + 1] segments (empty segments included). *)
Fixpoint str_split (sep : ascii) (s : string) : list string :=
  match s with
  | EmptyString => [EmptyString]
  | String a s' =>
      if Ascii.eqb a sep then EmptyString :: str_split sep s'
      else match str_split sep s' with
           | [] => [String a EmptyString]
           | w :: ws => String a w :: ws
           end
  end.

(** [c in s] for a character [c]. *)
Fixpoint has_char (c : ascii) (s : string) : bool :=
  match s with
  | EmptyString => false
  | String a s' => if Ascii.eqb a c then true else has_char c s'
  end.

(** [l[-1]] on a list of strings.  Python raises [IndexError] on the empty
    list; the only caller indexes the result of [split], which is never
    empty (lemma [str_split_nonempty]), so the default is never returned. *)
Definition last_item (l : list string) : string := List.last l EmptyString.

(** ["%s-%s" % (a, b)]. *)
Definition fmt_dash (a b : string) : string := a +:+ "-" +:+ b.

(** [x in (t1, t2, ...)] and [x in [t1, t2, ...]]: membership of a string
    in a tuple or list of strings, by [==]. *)
Definition py_in (tag : string) (ts : list string) : bool :=
  existsb (String.eqb tag) ts.

(** ** The tag mapper *)

(** The module-level constants, bound position by position by the tuple
    assignment of the source: the name [PRT] is bound to the string PART
    and the name [PUNC] to the string PUNCT. *)
Definition NOUN : string := "NOUN".
Definition VERB : string := "VERB".
Definition ADJ : string := "ADJ".
Definition ADV : string := "ADV".
Definition PRON : string := "PRON".
Definition DET : string := "DET".
Definition PREP : string := "PREP".
Definition ADP : string := "ADP".
Definition NUM : string := "NUM".
Definition CONJ : string := "CONJ".
Definition INTJ : string := "INTJ".
Definition PRT : string := "PART".
Definition PUNC : string := "PUNCT".
Definition X : string := "X".
Definition PROPN : string := "PROPN".

Definition hyphen : ascii := "-"%char.

(** The one-character string holding the double-quote character (code 34),
    the tenth entry of the punctuation tuple. *)
Definition dquote : string := String (ascii_of_nat 34) EmptyString.

Definition penntreebank2universal (tag : string) : string :=
  if str_startswith_any tag ["NNP-"; "NNPS-"] then
    fmt_dash NOUN (last_item (str_split hyphen tag))
  else if py_in tag ["NN"; "NNS"; "NP"] then NOUN
  else if py_in tag ["NNP"; "NNPS"] then PROPN
  else if py_in tag ["MD"; "VB"; "VBD"; "VBG"; "VBN"; "VBP"; "VBZ"] then VERB
  else if py_in tag ["JJ"; "JJR"; "JJS"] then ADJ
  else if py_in tag ["RB"; "RBR"; "RBS"; "WRB"] then ADV
  else if py_in tag ["PRP"; "PRP$"; "WP"; "WP$"] then PRON
  else if py_in tag ["DT"; "PDT"; "WDT"; "EX"] then DET
  else if py_in tag ["IN"] then PREP
  else if py_in tag ["CD"] then NUM
  else if py_in tag ["CC"] then CONJ
  else if py_in tag ["UH"] then INTJ
  else if py_in tag ["POS"; "RP"; "TO"] then PRT
  else if py_in tag
            ["SYM"; "LS"; "."; "!"; "?"; ","; ":"; "("; ")"; dquote; "#"; "$"]
       then PUNC
  else X.

(** ** Documents, tokens and spans

    The document, token and span classes belong to the NLP library; only
    what the script reads and writes is modelled.  A document is its
    sequence of token tags ([tok.pos_], in token order) and its entity
    annotations ([doc.ents]).  Iterating over a document yields its tokens
    in order, and [tok.i] is the token's index in the document. *)

Record Span := mkSpan {
  span_start : nat;
  span_end : nat;
  span_label : string
}.

Record Doc := mkDoc {
  doc_pos : list string;
  doc_ents : list Span
}.

Record Token := mkToken {
  tok_i : nat;
  tok_pos_ : string
}.

Global Instance Span_eq_dec : EqDecision Span.
Proof. solve_decision. Defined.

Global Instance Doc_eq_dec : EqDecision Doc.
Proof. solve_decision. Defined.

(** [for tok in doc]. *)
Definition doc_tokens (d : Doc) : list Token := imap mkToken (doc_pos d).

(** [doc.copy()]: a new document with the same tokens and annotations. *)
Definition doc_copy (d : Doc) : Doc := mkDoc (doc_pos d) (doc_ents d).

(** [Span(doc, start, end, label)]: the library refuses a range that is not
    within the document ([0 <= start <= end <= len(doc)]). *)
Definition new_Span (d : Doc) (start end_ : nat) (label : string) : option Span :=
  if bool_decide (start ≤ end_ ≤ length (doc_pos d))%nat
  then Some (mkSpan start end_ label)
  else None.

(** The token positions a list of spans covers, with repetitions. *)
Definition covered (ents : list Span) : list nat :=
  flat_map (fun sp => seq (span_start sp) (span_end sp - span_start sp)) ents.

(** [doc.set_ents(ents)] with the library's default for the other tokens
    (they are set to "outside any entity"): the annotations of the document
    become the spans of [ents], whatever they were.  The library refuses a
    list in which a token is covered by more than one span, and it keeps no
    entity without a label: a span whose label is the empty string leaves
    its tokens outside any entity, so that [doc.ents] does not hold it. *)
Definition set_ents (d : Doc) (ents : list Span) : option Doc :=
  if bool_decide (NoDup (covered ents))
  then Some (mkDoc (doc_pos d) (filter (fun sp => span_label sp ≠ "") ents))
  else None.

(** ** The corpus loader *)

(** One turn of the loop [for tok in doc] of [load_data_split]; the state
    is the pair of the local lists [ents] and [tok_pos]. *)
Definition gold_step (d : Doc) (all_labels : list string)
    (st : list Span * list string) (tok : Token) : option (list Span * list string) :=
  let '(ents, tok_pos) := st in
  if py_in (tok_pos_ tok) all_labels then
    sp ← new_Span d (tok_i tok) (tok_i tok + 1) (tok_pos_ tok);
    Some (ents ++ [sp], tok_pos ++ [tok_pos_ tok])
  else
    Some (ents, tok_pos ++ [X]).

Fixpoint gold_loop (d : Doc) (all_labels : list string) (toks : list Token)
    (st : list Span * list string) : option (list Span * list string) :=
  match toks with
  | [] => Some st
  | tok :: rest => st' ← gold_step d all_labels st tok; gold_loop d all_labels rest st'
  end.

(** The body of the loop [for doc in docs]: build [ents] and [tok_pos] from
    empty lists, then [doc.set_ents(ents)].  The local list [tok_pos] is
    returned next to the document so that it can be spoken about; the
    script itself drops it at the end of each turn. *)
Definition set_gold_labels (d : Doc) (all_labels : list string) : option (Doc * list string) :=
  '(ents, tok_pos) ← gold_loop d all_labels (doc_tokens d) ([], []);
  d' ← set_ents d ents;
  Some (d', tok_pos).

(** A record of the corpus: the reader yields examples, of which the script
    uses the reference document only. *)
Record Example := mkExample {
  predicted : Doc;
  reference : Doc
}.

(** [data[:n]] for a Python integer [n]: a negative [n] counts from the
    end, and both ends are clipped to the list. *)
Definition py_slice_to {A : Type} (data : list A) (n : Z) : list A :=
  if (n <? 0)%Z
  then take (Z.to_nat (Z.of_nat (length data) + n)) data
  else take (Z.to_nat n) data.

(** [os.path.join("corpus", "UD_English-EWT", f"{split}.spacy")]. *)
Definition corpus_path (split : string) : string :=
  "corpus/UD_English-EWT/" +:+ split +:+ ".spacy".

(** [if isinstance(subset, int): data = data[:subset]]: the records the
    loader keeps. *)
Definition truncate (data : list Example) (subset : option Z) : list Example :=
  match subset with
  | Some n => py_slice_to data n
  | None => data
  end.

(** [load_data_split(split, all_labels, subset)].  The files are a
    parameter: [corpus p] is the list of records the reader yields for the
    file at path [p], or [None] when reading fails.  [subset] is [Some n]
    for an argument that is an [int] and [None] for any other argument
    ([None] included), which leaves the list whole. *)
Definition load_data_split (corpus : string → option (list Example))
    (split : string) (all_labels : list string) (subset : option Z) : option (list Doc) :=
  data ← corpus (corpus_path split);
  let data := truncate data subset in
  let docs := map (fun ex => doc_copy (reference ex)) data in
  mapM (fun doc => fst <$> set_gold_labels doc all_labels) docs.

(** Closed forms of the two lists the loop builds, for the tags [pos] of
    the tokens from position [i] on; the theorems of Part II show that the
    loop computes them. *)
Fixpoint gold_spans_from (all_labels : list string) (i : nat) (pos : list string) : list Span :=
  match pos with
  | [] => []
  | t :: rest =>
      if py_in t all_labels
      then mkSpan i (i + 1) t :: gold_spans_from all_labels (S i) rest
      else gold_spans_from all_labels (S i) rest
  end.

Definition token_labels (all_labels : list string) (pos : list string) : list string :=
  map (fun t => if py_in t all_labels then t else X) pos.

(** The tags of the allow-list that can label an entity: all but the
    empty string. *)
Definition nonempty_labels (all_labels : list string) : list string :=
  filter (fun t => t ≠ "") all_labels.

(** The document the loader returns for a record, in closed form. *)
Definition gold_doc (all_labels : list string) (ex : Example) : Doc :=
  mkDoc (doc_pos (reference ex))
        (gold_spans_from (nonempty_labels all_labels) 0 (doc_pos (reference ex))).

(** A corpus with a token without tag: one file, the split "train", of
    one record whose second token has the empty tag. *)
Definition untagged_data : list Example :=
  [ mkExample (mkDoc ["DET"; ""; "NOUN"] []) (mkDoc ["DET"; ""; "NOUN"] []) ].

Definition untagged_corpus (path : string) : option (list Example) :=
  if String.eqb path "corpus/UD_English-EWT/train.spacy" then Some untagged_data else None.

(** A corpus to run the loader on: one file, the split "train", of three
    records; the first reference document carries an annotation. *)
Definition toy_data : list Example :=
  [ mkExample (mkDoc ["DET"; "NOUN"; "DET"; "VERB"] [])
              (mkDoc ["DET"; "NOUN"; "DET"; "VERB"] [mkSpan 0 4 "OLD"]);
    mkExample (mkDoc ["NOUN"] []) (mkDoc ["NOUN"] []);
    mkExample (mkDoc ["DET"] []) (mkDoc ["DET"] []) ].

Definition toy_corpus (path : string) : option (list Example) :=
  if String.eqb path "corpus/UD_English-EWT/train.spacy" then Some toy_data else None.

(** ** The labeling pass *)

(** Documents are objects: a labeling function receives a reference and may
    change the object behind it, create new objects, return the reference
    it was given or another one, or raise.  [store] maps object identities
    to document values; an exception carries a message, and the store it
    leaves behind is the store at the moment it was raised. *)
Definition loc := nat.
Abbreviation store := (gmap nat Doc).

Inductive outcome (A : Type) : Type :=
| Returns (h : store) (a : A)
| Raises (h : store) (e : string).
Arguments Returns {A} h a.
Arguments Raises {A} h e.

Definition M (A : Type) : Type := store → outcome A.

Global Instance M_ret : MRet M := fun A a h => Returns h a.

Global Instance M_bind : MBind M := fun A B k m h =>
  match m h with
  | Returns h' a => k a h'
  | Raises h' e => Raises h' e
  end.

Definition labeling_function := loc → M loc.

(** The inner loop [for lf in lfs: doc = lf(doc)]: the result of a call is
    bound to the loop variable [doc] and handed to the next function. *)
Fixpoint apply_lfs (lfs : list labeling_function) (doc : loc) : M loc :=
  match lfs with
  | [] => mret doc
  | lf :: rest => doc' ← lf doc; apply_lfs rest doc'
  end.

(** The outer loop [for doc in docs]: the last value of [doc] is dropped
    when the next turn rebinds the variable. *)
Fixpoint tag_docs (lfs : list labeling_function) (docs : list loc) : M unit :=
  match docs with
  | [] => mret tt
  | doc :: rest => _ ← apply_lfs lfs doc; tag_docs lfs rest
  end.

(** [tag_all(docs, lfs)]: run the loops, then [return docs]. *)
Definition tag_all (docs : list loc) (lfs : list labeling_function) : M (list loc) :=
  _ ← tag_docs lfs docs; mret docs.

(** What a caller sees through a list of references in a store. *)
Definition deref (h : store) (docs : list loc) : list (option Doc) :=
  map (fun l => h !! l) docs.

Definition view (o : outcome (list loc)) : option (list (option Doc)) :=
  match o with
  | Returns h docs => Some (deref h docs)
  | Raises _ _ => None
  end.

(** Two properties a labeling function may have.  It works in place when
    it returns the reference it was given (whatever it did to the object).
    It is non-mutating when, called on a live document, it returns a live
    document and leaves every object of the store as it was (it may create
    new objects): a pure function from documents to new documents. *)
Definition in_place (f : labeling_function) : Prop :=
  ∀ doc h h' doc', f doc h = Returns h' doc' → doc' = doc.

Definition non_mutating (f : labeling_function) : Prop :=
  ∀ doc h, is_Some (h !! doc) →
    ∃ h' doc', f doc h = Returns h' doc' ∧ h ⊆ h' ∧ is_Some (h' !! doc').

(** Labeling functions to run the pass on.  [annotate lbl] adds a span
    with label [lbl] over the first token.  [lf_in_place lbl] annotates the
    document it is given and returns it; [lf_fresh lbl] leaves it alone and
    returns an annotated copy; [lf_needs_tokens lbl] works in place and
    raises on a document without tokens. *)
Definition annotate (lbl : string) (d : Doc) : Doc :=
  mkDoc (doc_pos d) (doc_ents d ++ [mkSpan 0 1 lbl]).

Definition lf_in_place (lbl : string) : labeling_function := fun doc h =>
  match h !! doc with
  | Some d => Returns (<[doc := annotate lbl d]> h) doc
  | None => Raises h "no such document"
  end.

Definition lf_fresh (lbl : string) : labeling_function := fun doc h =>
  match h !! doc with
  | Some d => let l := fresh (dom h) in Returns (<[l := annotate lbl d]> h) l
  | None => Raises h "no such document"
  end.

Definition lf_needs_tokens (lbl : string) : labeling_function := fun doc h =>
  match h !! doc with
  | Some d =>
      match doc_pos d with
      | [] => Raises h "empty document"
      | _ :: _ => Returns (<[doc := annotate lbl d]> h) doc
      end
  | None => Raises h "no such document"
  end.

(** A store of three documents: two with one token, between them one
    without tokens. *)
Definition three_docs : store :=
  <[0 := mkDoc ["DET"] []]> (<[1 := mkDoc [] []]> (<[2 := mkDoc ["NOUN"] []]> ∅)).

Definition one_doc : store := <[0 := mkDoc ["DET"] []]> ∅.

(** ** The statements of the specification, in its own words

    These definitions follow the text of the specification, not the
    script; the theorems of Part II compare them with the script. *)

(** A table of pairs (fine-grained tags, coarse category) holds of the
    mapper when every tag of every row is mapped to the row's category. *)
Definition table_holds (tables : list (list string * string)) : Prop :=
  Forall (fun row => Forall (fun tag => penntreebank2universal tag = row.2) row.1) tables.

(** The category tables of section 4.1, the coarse categories spelled as
    the specification spells them. *)
Definition documented_tables : list (list string * string) :=
  [ (["NN"; "NNS"; "NP"], "NOUN");
    (["NNP"; "NNPS"], "PROPN");
    (["MD"; "VB"; "VBD"; "VBG"; "VBN"; "VBP"; "VBZ"], "VERB");
    (["JJ"; "JJR"; "JJS"], "ADJ");
    (["RB"; "RBR"; "RBS"; "WRB"], "ADV");
    (["PRP"; "PRP$"; "WP"; "WP$"], "PRON");
    (["DT"; "PDT"; "WDT"; "EX"], "DET");
    (["IN"], "PREP");
    (["CD"], "NUM");
    (["CC"], "CONJ");
    (["UH"], "INTJ");
    (["POS"; "RP"; "TO"], "PRT");
    (["SYM"; "LS"; "."; "!"; "?"; ","; ":"; "("; ")"; dquote; "#"; "$"], "PUNC") ].

(** Every tag that occurs in a category table. *)
Definition table_tags : list string := flat_map fst documented_tables.

(** "Mapping a function over the documents": the function is applied to
    each document in turn and the results are collected. *)
Fixpoint spec_map_docs (k : labeling_function) (docs : list loc) : M (list loc) :=
  match docs with
  | [] => mret []
  | doc :: rest =>
      doc' ← k doc;
      rest' ← spec_map_docs k rest;
      mret (doc' :: rest')
  end.

(** "Applying f then g in sequence to every document": the sequence
    obtained by mapping g composed with f over the documents. *)
Definition spec_tag_all_fg (f g : labeling_function) (docs : list loc) : M (list loc) :=
  spec_map_docs (fun doc => doc1 ← f doc; g doc1) docs.

(** The tokens of a document whose tag is in the allow-list, and the
    number K of distinct tags of the allow-list present among the tokens. *)
Definition matching_tokens (all_labels : list string) (d : Doc) : list Token :=
  filter (fun tok => tok_pos_ tok ∈ all_labels) (doc_tokens d).

Definition distinct_present (all_labels : list string) (d : Doc) : nat :=
  length (remove_dups (filter (fun t => t ∈ doc_pos d) all_labels)).

(** ** Definitions for the further properties of Part III *)

(** The strings the mapper returns outside its compound rule, under the
    names the script gives them. *)
Definition categories : list string :=
  [NOUN; PROPN; VERB; ADJ; ADV; PRON; DET; PREP; NUM; CONJ; INTJ; PRT; PUNC; X].

(** The thirteen membership tests of the mapper, in the order of the
    script, each tuple with the constant its branch returns. *)
Definition mapper_rows : list (list string * string) :=
  [ (["NN"; "NNS"; "NP"], NOUN);
    (["NNP"; "NNPS"], PROPN);
    (["MD"; "VB"; "VBD"; "VBG"; "VBN"; "VBP"; "VBZ"], VERB);
    (["JJ"; "JJR"; "JJS"], ADJ);
    (["RB"; "RBR"; "RBS"; "WRB"], ADV);
    (["PRP"; "PRP$"; "WP"; "WP$"], PRON);
    (["DT"; "PDT"; "WDT"; "EX"], DET);
    (["IN"], PREP);
    (["CD"], NUM);
    (["CC"], CONJ);
    (["UH"], INTJ);
    (["POS"; "RP"; "TO"], PRT);
    (["SYM"; "LS"; "."; "!"; "?"; ","; ":"; "("; ")"; dquote; "#"; "$"], PUNC) ].

(** The number of records [data[:n]] keeps of [len] records. *)
Definition slice_len (len : nat) (n : Z) : Z :=
  if (n <? 0)%Z then Z.max 0 (Z.of_nat len + n) else Z.min n (Z.of_nat len).

(** The labeling function that rewrites the document it is given by a
    transformation [F] of document values, and returns it. *)
Definition lf_of (F : Doc → Doc) : labeling_function := fun doc h =>
  match h !! doc with
  | Some d => Returns (<[doc := F d]> h) doc
  | None => Raises h "no such document"
  end.

(** The transformations of a list applied one after the other, first to
    last. *)
Definition run_all (Fs : list (Doc → Doc)) (d : Doc) : Doc :=
  foldl (fun d F => F d) d Fs.

(** The store after each document of a list, in turn, was rewritten by
    [run_all Fs]: a document listed twice is rewritten twice. *)
Definition rewrite_docs (Fs : list (Doc → Doc)) (h : store) (docs : list loc) : store :=
  foldl (fun h l => alter (run_all Fs) l h) h docs.

(** What a run leaves behind apart from its result: the store, and the
    exception if it raised. *)
Definition effects {A : Type} (o : outcome A) : store * option string :=
  match o with
  | Returns h _ => (h, None)
  | Raises h e => (h, Some e)
  end.

(* ===================================================================== *)
(** * Part II: theorems *)
(* ===================================================================== *)

(** ** Strings *)

Lemma py_in_elem_of (x : string) (l : list string) :
  py_in x l = true ↔ x ∈ l.
Proof.
  unfold py_in. rewrite existsb_exists. split.
  - intros (y & Hy & Heq). apply String.eqb_eq in Heq. subst y.
    by apply list_elem_of_In.
  - intros Hx. exists x. split.
    + by apply list_elem_of_In.
    + apply String.eqb_refl.
Qed.

Lemma py_in_false (x : string) (l : list string) :
  py_in x l = false ↔ x ∉ l.
Proof.
  rewrite <- py_in_elem_of. destruct (py_in x l); split; congruence.
Qed.

Lemma str_startswith_app (p r : string) : str_startswith (p +:+ r) p = true.
Proof.
  induction p as [|a p IH]; simpl; [done|].
  by rewrite Ascii.eqb_refl.
Qed.

Lemma str_startswith_inv (s p : string) :
  str_startswith s p = true → ∃ r, s = p +:+ r.
Proof.
  revert s. induction p as [|a p IH]; intros s H; simpl in *.
  - by exists s.
  - destruct s as [|b s]; [discriminate|].
    destruct (Ascii.eqb a b) eqn:E; [|discriminate].
    apply Ascii.eqb_eq in E. subst b.
    destruct (IH _ H) as [r ->]. by exists r.
Qed.

Lemma str_split_nonempty (c : ascii) (s : string) : str_split c s ≠ [].
Proof.
  destruct s as [|a s]; simpl; [done|].
  destruct (Ascii.eqb a c); [done|].
  by destruct (str_split c s).
Qed.

(** A string without the separator is its own single segment. *)
Lemma str_split_no_sep (c : ascii) (s : string) :
  has_char c s = false → str_split c s = [s].
Proof.
  induction s as [|a s IH]; simpl; [done|].
  destruct (Ascii.eqb a c); [done|].
  intros H. by rewrite (IH H).
Qed.

(** Behind an occurrence of the separator the segments are those of the
    rest of the string; in front of them there is at least one segment. *)
Lemma str_split_app_sep (c : ascii) (p rest : string) :
  ∃ front, front ≠ [] ∧
    str_split c (p +:+ String c rest) = front ++ str_split c rest.
Proof.
  induction p as [|a p (front & Hne & IH)]; simpl.
  - rewrite Ascii.eqb_refl. by exists [EmptyString].
  - destruct (Ascii.eqb a c).
    + exists (EmptyString :: front). split; [done|]. by rewrite IH.
    + rewrite IH. destruct front as [|w ws]; [done|].
      by exists (String a w :: ws).
Qed.

Lemma last_app_nonempty (l1 l2 : list string) (d : string) :
  l2 ≠ [] → List.last (l1 ++ l2) d = List.last l2 d.
Proof.
  intros Hne. induction l1 as [|x l1 IH]; simpl; [done|].
  rewrite IH. destruct (l1 ++ l2) eqn:E; [|done].
  apply app_eq_nil in E as [_ ->]. done.
Qed.

(** [s.split(c)[-1]] only looks behind the last separator. *)
Lemma last_item_split_app (c : ascii) (p rest : string) :
  last_item (str_split c (p +:+ String c rest)) = last_item (str_split c rest).
Proof.
  destruct (str_split_app_sep c p rest) as (front & _ & ->).
  apply last_app_nonempty, str_split_nonempty.
Qed.

Lemma last_item_split_suffix (c : ascii) (p seg : string) :
  has_char c seg = false →
  last_item (str_split c (p +:+ String c seg)) = seg.
Proof.
  intros H. rewrite last_item_split_app, (str_split_no_sep _ _ H). done.
Qed.

(** A string that holds the separator splits at its last occurrence. *)
Lemma has_char_last_occurrence (c : ascii) (s : string) :
  has_char c s = true →
  ∃ p seg, s = p +:+ String c seg ∧ has_char c seg = false.
Proof.
  induction s as [|a s IH]; simpl; [done|].
  destruct (has_char c s) eqn:Hs.
  - intros _. destruct (IH eq_refl) as (p & seg & -> & Hseg).
    by exists (String a p), seg.
  - destruct (Ascii.eqb a c) eqn:E; [|done].
    apply Ascii.eqb_eq in E. subst a. intros _. by exists EmptyString, s.
Qed.

Lemma string_app_cons (x : ascii) (a b : string) :
  String x a +:+ b = String x (a +:+ b).
Proof. reflexivity. Qed.

Lemma string_app_assoc (a b c : string) : (a +:+ b) +:+ c = a +:+ (b +:+ c).
Proof.
  induction a as [|x a IH]; [reflexivity|].
  rewrite !string_app_cons. by f_equal.
Qed.

(** ** The tag mapper *)

Lemma compound_has_hyphen (tag : string) :
  str_startswith_any tag ["NNP-"; "NNPS-"] = true → has_char hyphen tag = true.
Proof.
  unfold str_startswith_any.
  change (existsb (str_startswith tag) ["NNP-"; "NNPS-"])
    with (str_startswith tag "NNP-" || (str_startswith tag "NNPS-" || false)).
  rewrite orb_false_r.
  intros [H|H]%orb_true_iff; apply str_startswith_inv in H as [r ->]; reflexivity.
Qed.

(** A tag outside the category tables is in none of the tuples they are
    made of. *)
Lemma py_in_outside_table (tag : string) (l : list string) :
  tag ∉ table_tags →
  forallb (fun x => py_in x table_tags) l = true →
  py_in tag l = false.
Proof.
  intros Hnot Hsub. apply py_in_false. intros Hin. apply Hnot.
  rewrite forallb_forall in Hsub.
  apply py_in_elem_of, Hsub. by apply list_elem_of_In.
Qed.

(** On a tag of the compound form the mapper answers with the category
    NOUN, a hyphen and the part of the tag behind its last hyphen. *)
Lemma penntreebank2universal_last_segment (p seg : string) :
  str_startswith_any (p +:+ String hyphen seg) ["NNP-"; "NNPS-"] = true →
  has_char hyphen seg = false →
  penntreebank2universal (p +:+ String hyphen seg) = "NOUN-" +:+ seg.
Proof.
  intros Hc Hseg. unfold penntreebank2universal. rewrite Hc.
  by rewrite last_item_split_suffix.
Qed.

(** C1, as amended.  Every tag of the category tables is mapped to the
    category of its row, where the particle row {POS, RP, TO} is mapped to
    the string PART and the punctuation row to the string PUNCT (the values
    the script binds to its names PRT and PUNC); the other eleven rows are
    mapped to the names the specification gives. *)
Theorem penntreebank2universal_tables :
  table_holds
    [ (["NN"; "NNS"; "NP"], "NOUN");
      (["NNP"; "NNPS"], "PROPN");
      (["MD"; "VB"; "VBD"; "VBG"; "VBN"; "VBP"; "VBZ"], "VERB");
      (["JJ"; "JJR"; "JJS"], "ADJ");
      (["RB"; "RBR"; "RBS"; "WRB"], "ADV");
      (["PRP"; "PRP$"; "WP"; "WP$"], "PRON");
      (["DT"; "PDT"; "WDT"; "EX"], "DET");
      (["IN"], "PREP");
      (["CD"], "NUM");
      (["CC"], "CONJ");
      (["UH"], "INTJ");
      (["POS"; "RP"; "TO"], "PART");
      (["SYM"; "LS"; "."; "!"; "?"; ","; ":"; "("; ")"; dquote; "#"; "$"], "PUNCT") ].
Proof. unfold table_holds. repeat constructor. Qed.

(** C1, as the specification states it, fails: the tables with the
    categories spelled PRT and PUNC do not hold of the mapper, which
    answers PART for POS and PUNCT for a comma. *)
Lemma documented_tables_do_not_hold :
  penntreebank2universal "POS" = "PART" ∧
  penntreebank2universal "," = "PUNCT" ∧
  ¬ table_holds documented_tables.
Proof.
  split; [reflexivity|]. split; [reflexivity|].
  unfold table_holds. intros H.
  apply (Forall_lookup_1 _ _ 11 (["POS"; "RP"; "TO"], "PRT")) in H; [|reflexivity].
  apply (Forall_lookup_1 _ _ 0 "POS") in H; [|reflexivity].
  vm_compute in H. discriminate.
Qed.

(** C2, as amended.  For a suffix [s] without a hyphen the compound inputs
    NNP-s and NNPS-s are mapped to NOUN-s; for a suffix that holds a hyphen
    only the part [t] behind the last hyphen is kept; and every tag that
    starts with NNP- or NNPS- is answered by the compound rule (its result
    starts with NOUN-), never from the category tables. *)
Theorem penntreebank2universal_compound :
  (∀ s, has_char hyphen s = false →
     penntreebank2universal ("NNP-" +:+ s) = "NOUN-" +:+ s ∧
     penntreebank2universal ("NNPS-" +:+ s) = "NOUN-" +:+ s) ∧
  (∀ s t, has_char hyphen t = false →
     penntreebank2universal ("NNP-" +:+ s +:+ "-" +:+ t) = "NOUN-" +:+ t ∧
     penntreebank2universal ("NNPS-" +:+ s +:+ "-" +:+ t) = "NOUN-" +:+ t) ∧
  (∀ tag, str_startswith_any tag ["NNP-"; "NNPS-"] = true →
     str_startswith (penntreebank2universal tag) "NOUN-" = true).
Proof.
  split; [|split].
  - intros s Hs. split.
    + by apply (penntreebank2universal_last_segment "NNP" s).
    + by apply (penntreebank2universal_last_segment "NNPS" s).
  - intros s t Ht. split.
    + rewrite <- string_app_assoc.
      by apply (penntreebank2universal_last_segment ("NNP-" +:+ s) t).
    + rewrite <- string_app_assoc.
      by apply (penntreebank2universal_last_segment ("NNPS-" +:+ s) t).
  - intros tag Hc. unfold penntreebank2universal. by rewrite Hc.
Qed.

Lemma penntreebank2universal_compound_witness :
  penntreebank2universal ("NNP-" +:+ "LOC") = "NOUN-" +:+ "LOC" ∧
  penntreebank2universal ("NNPS-" +:+ "A" +:+ "-" +:+ "B") = "NOUN-" +:+ "B" ∧
  str_startswith (penntreebank2universal "NNP-LOC") "NOUN-" = true.
Proof.
  destruct penntreebank2universal_compound as (H1 & H2 & H3).
  split; [|split].
  - apply (H1 "LOC"). reflexivity.
  - apply (H2 "A" "B"). reflexivity.
  - apply (H3 "NNP-LOC"). reflexivity.
Defined.

(** C2, as the specification states it, fails: the suffix A-B is not
    empty, and NNP-A-B is mapped to NOUN-B, not to NOUN-A-B. *)
Lemma penntreebank2universal_hyphen_suffix_cut :
  "A-B" ≠ "" ∧
  penntreebank2universal ("NNP-" +:+ "A-B") = "NOUN-B" ∧
  penntreebank2universal ("NNP-" +:+ "A-B") ≠ "NOUN-" +:+ "A-B".
Proof. split; [done|]. split; [reflexivity|]. vm_compute. discriminate. Qed.

(** C8.  The mapper answers on every string, and a string that neither
    starts with NNP- or NNPS- nor occurs in a category table is mapped to
    the fallback X. *)
Theorem penntreebank2universal_fallback (tag : string) :
  ∃ out, penntreebank2universal tag = out ∧
    (str_startswith_any tag ["NNP-"; "NNPS-"] = false →
     tag ∉ table_tags →
     out = "X").
Proof.
  eexists. split; [reflexivity|].
  intros Hc Hnot. unfold penntreebank2universal. rewrite Hc.
  repeat match goal with
  | |- context [py_in tag ?l] =>
      rewrite (py_in_outside_table tag l Hnot) by reflexivity
  end.
  reflexivity.
Qed.

Lemma penntreebank2universal_fallback_witness :
  penntreebank2universal "XYZ" = "X".
Proof.
  destruct (penntreebank2universal_fallback "XYZ") as (out & <- & H).
  apply H; [reflexivity|]. by apply py_in_false.
Defined.

(** C10.  The inputs NNP- and NNPS- are mapped to NOUN- (with nothing
    behind the hyphen); and every tag that starts with NNP- or NNPS- splits
    at its last hyphen into a part before it and a segment [seg] without a
    hyphen, and is mapped to NOUN- followed by that segment alone. *)
Theorem penntreebank2universal_empty_suffix :
  penntreebank2universal "NNP-" = "NOUN-" ∧
  penntreebank2universal "NNPS-" = "NOUN-" ∧
  (∀ tag, str_startswith_any tag ["NNP-"; "NNPS-"] = true →
     ∃ before seg,
       tag = before +:+ "-" +:+ seg ∧
       has_char hyphen seg = false ∧
       penntreebank2universal tag = "NOUN-" +:+ seg).
Proof.
  split; [reflexivity|]. split; [reflexivity|].
  intros tag Hc.
  destruct (has_char_last_occurrence hyphen tag (compound_has_hyphen tag Hc))
    as (p & seg & -> & Hseg).
  exists p, seg. split; [reflexivity|]. split; [done|].
  by apply penntreebank2universal_last_segment.
Qed.

Lemma penntreebank2universal_empty_suffix_witness :
  ∃ before seg,
    "NNP-A-B" = before +:+ "-" +:+ seg ∧
    has_char hyphen seg = false ∧
    penntreebank2universal "NNP-A-B" = "NOUN-" +:+ seg.
Proof.
  destruct penntreebank2universal_empty_suffix as (_ & _ & H).
  apply (H "NNP-A-B"). reflexivity.
Defined.

(** ** The labeling pass *)

Lemma bind_returns {A B : Type} (m : M A) (k : A → M B) h h' a :
  m h = Returns h' a → (m ≫= k) h = k a h'.
Proof. intros H. unfold mbind, M_bind. by rewrite H. Qed.

Lemma bind_raises {A B : Type} (m : M A) (k : A → M B) h h' e :
  m h = Raises h' e → (m ≫= k) h = Raises h' e.
Proof. intros H. unfold mbind, M_bind. by rewrite H. Qed.

Lemma bind_returns_inv {A B : Type} (m : M A) (k : A → M B) h h2 b :
  (m ≫= k) h = Returns h2 b →
  ∃ h1 a, m h = Returns h1 a ∧ k a h1 = Returns h2 b.
Proof.
  unfold mbind, M_bind. destruct (m h) as [h1 a|h1 e]; [|done].
  intros H. by exists h1, a.
Qed.

Lemma tag_all_unfold docs lfs h :
  tag_all docs lfs h =
    match tag_docs lfs docs h with
    | Returns h' _ => Returns h' docs
    | Raises h' e => Raises h' e
    end.
Proof. reflexivity. Qed.

Lemma tag_docs_cons lfs doc rest h :
  tag_docs lfs (doc :: rest) h =
    match apply_lfs lfs doc h with
    | Returns h' _ => tag_docs lfs rest h'
    | Raises h' e => Raises h' e
    end.
Proof. reflexivity. Qed.

Lemma apply_lfs_cons lf rest doc h :
  apply_lfs (lf :: rest) doc h =
    match lf doc h with
    | Returns h' doc' => apply_lfs rest doc' h'
    | Raises h' e => Raises h' e
    end.
Proof. reflexivity. Qed.

(** The loops distribute over a concatenation of their list. *)
Lemma tag_docs_app lfs pre post h :
  tag_docs lfs (pre ++ post) h =
    match tag_docs lfs pre h with
    | Returns h' _ => tag_docs lfs post h'
    | Raises h' e => Raises h' e
    end.
Proof.
  revert h. induction pre as [|doc pre IH]; intros h; [reflexivity|].
  rewrite <- app_comm_cons, !tag_docs_cons.
  destruct (apply_lfs lfs doc h); [apply IH | reflexivity].
Qed.

Lemma apply_lfs_app lpre lpost doc h :
  apply_lfs (lpre ++ lpost) doc h =
    match apply_lfs lpre doc h with
    | Returns h' doc' => apply_lfs lpost doc' h'
    | Raises h' e => Raises h' e
    end.
Proof.
  revert doc h. induction lpre as [|lf lpre IH]; intros doc h; [reflexivity|].
  rewrite <- app_comm_cons, !apply_lfs_cons.
  destruct (lf doc h); [apply IH | reflexivity].
Qed.

(** Whatever the labeling functions return, the pass returns its own
    argument [docs]. *)
Lemma tag_all_returns_docs docs lfs h h' r :
  tag_all docs lfs h = Returns h' r → r = docs.
Proof.
  rewrite tag_all_unfold. destruct (tag_docs lfs docs h); congruence.
Qed.

Lemma tag_all_returns_inv docs lfs h h' r :
  tag_all docs lfs h = Returns h' r → tag_docs lfs docs h = Returns h' ().
Proof.
  rewrite tag_all_unfold. destruct (tag_docs lfs docs h) as [h1 []|]; congruence.
Qed.

(** With functions that work in place, the two loops do what mapping
    "f, then g" over the documents does. *)
Lemma tag_docs_in_place_fg (f g : labeling_function) docs h :
  in_place f → in_place g →
  spec_tag_all_fg f g docs h =
    match tag_docs [f; g] docs h with
    | Returns h' _ => Returns h' docs
    | Raises h' e => Raises h' e
    end.
Proof.
  intros Hf Hg. revert h. induction docs as [|doc rest IH]; intros h; [reflexivity|].
  rewrite tag_docs_cons, !apply_lfs_cons.
  unfold spec_tag_all_fg in *. cbn [spec_map_docs apply_lfs].
  unfold mbind, M_bind, mret, M_ret in *.
  destruct (f doc h) as [h1 doc1|h1 e] eqn:Ef; [|reflexivity].
  pose proof (Hf _ _ _ _ Ef) as ->.
  destruct (g doc h1) as [h2 doc2|h2 e] eqn:Eg; [|reflexivity].
  pose proof (Hg _ _ _ _ Eg) as ->.
  rewrite IH. by destruct (tag_docs [f; g] rest h2).
Qed.

(** Non-mutating functions keep every object of the store, and hand a live
    document on. *)
Lemma apply_lfs_non_mutating lfs doc h :
  Forall non_mutating lfs → is_Some (h !! doc) →
  ∃ h' doc', apply_lfs lfs doc h = Returns h' doc' ∧ h ⊆ h' ∧ is_Some (h' !! doc').
Proof.
  intros Hlfs. revert doc h.
  induction Hlfs as [|lf lfs Hlf _ IH]; intros doc h Hdoc.
  - by exists h, doc.
  - destruct (Hlf doc h Hdoc) as (h1 & doc1 & E1 & Hsub1 & Hdoc1).
    destruct (IH doc1 h1 Hdoc1) as (h2 & doc2 & E2 & Hsub2 & Hdoc2).
    exists h2, doc2. rewrite apply_lfs_cons, E1. split; [done|].
    split; [by etrans|done].
Qed.

Lemma tag_docs_non_mutating lfs docs h :
  Forall non_mutating lfs → Forall (fun l => is_Some (h !! l)) docs →
  ∃ h', tag_docs lfs docs h = Returns h' () ∧ h ⊆ h'.
Proof.
  intros Hlfs. revert h. induction docs as [|doc rest IH]; intros h Hlive.
  - by exists h.
  - apply Forall_cons in Hlive as [Hdoc Hrest].
    destruct (apply_lfs_non_mutating lfs doc h Hlfs Hdoc) as (h1 & doc1 & E1 & Hsub1 & _).
    destruct (IH h1) as (h2 & E2 & Hsub2).
    { eapply Forall_impl; [exact Hrest|]. intros l Hl. simpl in *.
      exact (lookup_weaken_is_Some _ _ _ Hl Hsub1). }
    exists h2. rewrite tag_docs_cons, E1. split; [done|by etrans].
Qed.

Lemma lf_fresh_non_mutating lbl : non_mutating (lf_fresh lbl).
Proof.
  intros doc h [d Hd]. unfold lf_fresh. rewrite Hd.
  eexists _, _. split; [reflexivity|]. split.
  - apply insert_subseteq, not_elem_of_dom, is_fresh.
  - rewrite lookup_insert_eq. eauto.
Qed.

Lemma lf_in_place_in_place lbl : in_place (lf_in_place lbl).
Proof.
  intros doc h h' doc'. unfold lf_in_place.
  destruct (h !! doc); congruence.
Qed.

(** C3, as amended.  For labeling functions [f] and [g] that work in place
    (each returns the document it was given), [tag_all docs [f; g]] is what
    mapping "f, then g" over the documents is: the same result, the same
    store, and the same exception when a function raises; and with no
    labeling function the pass returns the documents and the store as they
    are. *)
Theorem tag_all_in_place_fg (f g : labeling_function) (docs : list loc) (h : store) :
  (in_place f → in_place g →
     tag_all docs [f; g] h = spec_tag_all_fg f g docs h) ∧
  tag_all docs [] h = Returns h docs.
Proof.
  split.
  - intros Hf Hg. by rewrite tag_all_unfold, tag_docs_in_place_fg.
  - rewrite tag_all_unfold.
    assert (H : ∀ h0, tag_docs [] docs h0 = Returns h0 ()).
    { induction docs as [|doc rest IH]; intros h0; [reflexivity|].
      rewrite tag_docs_cons. apply IH. }
    by rewrite H.
Qed.

Lemma tag_all_in_place_fg_witness :
  tag_all [0] [lf_in_place "A"; lf_in_place "B"] one_doc =
    spec_tag_all_fg (lf_in_place "A") (lf_in_place "B") [0] one_doc.
Proof.
  apply (tag_all_in_place_fg (lf_in_place "A") (lf_in_place "B") [0] one_doc);
    apply lf_in_place_in_place.
Defined.

(** C3, as the specification states it, fails.  With two functions that
    return annotated copies, the pass returns the document it was given,
    without annotations; mapping "f, then g" gives a document with both. *)
Lemma tag_all_fresh_fg_differs :
  view (tag_all [0] [lf_fresh "A"; lf_fresh "B"] one_doc) =
    Some [Some (mkDoc ["DET"] [])] ∧
  view (spec_tag_all_fg (lf_fresh "A") (lf_fresh "B") [0] one_doc) =
    Some [Some (mkDoc ["DET"] [mkSpan 0 1 "A"; mkSpan 0 1 "B"])] ∧
  tag_all [0] [lf_fresh "A"; lf_fresh "B"] one_doc ≠
    spec_tag_all_fg (lf_fresh "A") (lf_fresh "B") [0] one_doc.
Proof.
  split; [by vm_compute|]. split; [by vm_compute|].
  intros H. apply (f_equal view) in H. vm_compute in H. discriminate.
Qed.

(** The order of the labeling functions is the order of the calls. *)
Lemma tag_all_order_matters :
  view (tag_all [0] [lf_in_place "A"; lf_in_place "B"] one_doc) =
    Some [Some (mkDoc ["DET"] [mkSpan 0 1 "A"; mkSpan 0 1 "B"])] ∧
  view (tag_all [0] [lf_in_place "B"; lf_in_place "A"] one_doc) =
    Some [Some (mkDoc ["DET"] [mkSpan 0 1 "B"; mkSpan 0 1 "A"])].
Proof. split; by vm_compute. Qed.

(** C4, as amended.  Whenever the pass returns, it returns the list of
    references it was given.  The value a labeling function returns is
    bound to the loop variable only: it is the document the next function
    is called on, and is dropped after the last function: the pass on
    [doc :: rest] with the functions [f :: lfs] calls [f] on [doc], runs
    [lfs] on what [f] returned, goes on with [rest], and returns
    [doc :: rest].  When all the labeling functions are non-mutating and
    the documents are live, the pass does return, and every object of the
    store reads after the pass as it read before. *)
Theorem tag_all_returns_its_argument (docs : list loc)
    (lfs : list labeling_function) (h : store) :
  (∀ h' r, tag_all docs lfs h = Returns h' r → r = docs) ∧
  (∀ f doc,
     tag_all (doc :: docs) (f :: lfs) h =
       match f doc h with
       | Returns h1 doc1 =>
           match tag_all [doc1] lfs h1 with
           | Returns h2 _ =>
               match tag_all docs (f :: lfs) h2 with
               | Returns h3 _ => Returns h3 (doc :: docs)
               | Raises h3 e => Raises h3 e
               end
           | Raises h2 e => Raises h2 e
           end
       | Raises h1 e => Raises h1 e
       end) ∧
  (Forall non_mutating lfs → Forall (fun l => is_Some (h !! l)) docs →
     ∃ h', tag_all docs lfs h = Returns h' docs ∧
           ∀ l d, h !! l = Some d → h' !! l = Some d).
Proof.
  split; [|split].
  - intros h' r. apply tag_all_returns_docs.
  - intros f doc. rewrite !tag_all_unfold, tag_docs_cons, apply_lfs_cons.
    destruct (f doc h) as [h1 doc1|h1 e]; [|reflexivity].
    rewrite tag_all_unfold, tag_docs_cons.
    destruct (apply_lfs lfs doc1 h1) as [h2 doc2|h2 e]; [|reflexivity].
    cbn [tag_docs]. unfold mret, M_ret.
    rewrite tag_all_unfold. by destruct (tag_docs (f :: lfs) docs h2).
  - intros Hlfs Hlive.
    destruct (tag_docs_non_mutating lfs docs h Hlfs Hlive) as (h' & E & Hsub).
    exists h'. rewrite tag_all_unfold, E. split; [done|].
    intros l d Hl. by eapply lookup_weaken.
Qed.

Lemma tag_all_returns_its_argument_witness :
  ∃ h', tag_all [0] [lf_fresh "A"; lf_fresh "B"] one_doc = Returns h' [0] ∧
        ∀ l d, one_doc !! l = Some d → h' !! l = Some d.
Proof.
  apply (tag_all_returns_its_argument [0] [lf_fresh "A"; lf_fresh "B"] one_doc).
  - repeat constructor; apply lf_fresh_non_mutating.
  - constructor; [|constructor]. eexists. vm_compute. reflexivity.
Defined.

(** C4, as it is stated, fails.  The function [lf_fresh "A"] returns a
    new document and changes no object, yet it changes what the pass
    leaves: behind it, the function that works in place annotates the copy,
    and the document the pass returns has no annotation; without it, the
    document the pass returns is annotated. *)
Lemma tag_all_fresh_function_matters :
  non_mutating (lf_fresh "A") ∧
  view (tag_all [0] [lf_fresh "A"; lf_in_place "B"] one_doc) =
    Some [Some (mkDoc ["DET"] [])] ∧
  view (tag_all [0] [lf_in_place "B"] one_doc) =
    Some [Some (mkDoc ["DET"] [mkSpan 0 1 "B"])].
Proof.
  split; [apply lf_fresh_non_mutating|]. split; by vm_compute.
Qed.

(** A raising inner loop stopped at the first function that raised. *)
Lemma apply_lfs_raises_inv lfs doc h h3 e :
  apply_lfs lfs doc h = Raises h3 e →
  ∃ lpre lf lpost h2 doc',
    lfs = lpre ++ lf :: lpost ∧
    apply_lfs lpre doc h = Returns h2 doc' ∧
    lf doc' h2 = Raises h3 e.
Proof.
  revert doc h. induction lfs as [|lf lfs IH]; intros doc h; [discriminate|].
  rewrite apply_lfs_cons. destruct (lf doc h) as [h1 doc1|h1 e1] eqn:E.
  - intros (lpre & lf' & lpost & h2 & doc' & -> & Hpre & Hlf)%IH.
    exists (lf :: lpre), lf', lpost, h2, doc'.
    split; [reflexivity|]. split; [|exact Hlf].
    by rewrite apply_lfs_cons, E.
  - intros [= -> ->]. by exists [], lf, lfs, h, doc.
Qed.

(** C9.  The pass raises [e] and leaves the store [h3] exactly when the
    documents split into those before a document [doc], which went through
    all the labeling functions, [doc] itself and those behind it, and the
    functions split into those before a function [lf], which returned on
    [doc] one after the other, [lf] itself, which raised [e] and left [h3],
    and those behind it: the exception and the store are those of the
    failing call, and neither the functions behind [lf] nor the documents
    behind [doc] play any part. *)
Theorem tag_all_failure_propagates (docs : list loc) (lfs : list labeling_function)
    (h h3 : store) (e : string) :
  tag_all docs lfs h = Raises h3 e ↔
  ∃ pre doc post lpre lf lpost h1 h2 doc',
    docs = pre ++ doc :: post ∧
    lfs = lpre ++ lf :: lpost ∧
    tag_all pre lfs h = Returns h1 pre ∧
    apply_lfs lpre doc h1 = Returns h2 doc' ∧
    lf doc' h2 = Raises h3 e.
Proof.
  split.
  - rewrite tag_all_unfold.
    destruct (tag_docs lfs docs h) as [|h' e'] eqn:E; [discriminate|].
    intros [= -> ->]. revert h E.
    induction docs as [|doc rest IH]; intros h; [discriminate|].
    rewrite tag_docs_cons.
    destruct (apply_lfs lfs doc h) as [h1 doc1|h1 e1] eqn:E1.
    + intros (pre & d & post & lpre & lf & lpost & h1' & h2 & doc' &
              -> & -> & Hpre & Hlpre & Hlf)%IH.
      exists (doc :: pre), d, post, lpre, lf, lpost, h1', h2, doc'.
      split; [reflexivity|]. split; [reflexivity|]. split; [|done].
      apply tag_all_returns_inv in Hpre.
      by rewrite tag_all_unfold, tag_docs_cons, E1, Hpre.
    + intros [= -> ->].
      apply apply_lfs_raises_inv in E1
        as (lpre & lf & lpost & h2 & doc' & -> & Hlpre & Hlf).
      by exists [], doc, rest, lpre, lf, lpost, h, h2, doc'.
  - intros (pre & doc & post & lpre & lf & lpost & h1 & h2 & doc' &
            -> & -> & Hpre & Hlpre & Hlf).
    apply tag_all_returns_inv in Hpre.
    rewrite tag_all_unfold, tag_docs_app, Hpre, tag_docs_cons.
    by rewrite apply_lfs_app, Hlpre, apply_lfs_cons, Hlf.
Qed.

Lemma tag_all_failure_propagates_witness :
  ∃ h3,
    tag_all [0; 1; 2] [lf_in_place "A"; lf_needs_tokens "N"; lf_in_place "B"] three_docs =
      Raises h3 "empty document" ∧
    deref h3 [0; 1; 2] =
      [ Some (mkDoc ["DET"] [mkSpan 0 1 "A"; mkSpan 0 1 "N"; mkSpan 0 1 "B"]);
        Some (mkDoc [] [mkSpan 0 1 "A"]);
        Some (mkDoc ["NOUN"] []) ].
Proof.
  eexists. split.
  - apply (proj2 (tag_all_failure_propagates [0; 1; 2]
             [lf_in_place "A"; lf_needs_tokens "N"; lf_in_place "B"]
             three_docs _ "empty document")).
    exists [0], 1, [2], [lf_in_place "A"], (lf_needs_tokens "N"), [lf_in_place "B"],
      (<[0 := mkDoc ["DET"] [mkSpan 0 1 "A"; mkSpan 0 1 "N"; mkSpan 0 1 "B"]]> three_docs),
      (<[1 := mkDoc [] [mkSpan 0 1 "A"]]>
         (<[0 := mkDoc ["DET"] [mkSpan 0 1 "A"; mkSpan 0 1 "N"; mkSpan 0 1 "B"]]> three_docs)),
      1.
    split; [reflexivity|]. split; [reflexivity|].
    split; [by vm_compute|]. split; [by vm_compute|]. vm_compute. reflexivity.
  - by vm_compute.
Defined.

(** ** The corpus loader *)

Lemma gold_loop_closed_form (d : Doc) (all_labels : list string) (pos : list string) :
  ∀ (k : nat) (ents : list Span) (tok_pos : list string),
    k + length pos ≤ length (doc_pos d) →
    gold_loop d all_labels (imap (fun i => mkToken (k + i)) pos) (ents, tok_pos) =
      Some (ents ++ gold_spans_from all_labels k pos,
            tok_pos ++ token_labels all_labels pos).
Proof.
  induction pos as [|t rest IH]; intros k ents tok_pos Hlen.
  - simpl. by rewrite !app_nil_r.
  - rewrite imap_cons. cbn [gold_loop gold_step tok_pos_ tok_i length] in *.
    rewrite (imap_ext _ (fun i => mkToken (S k + i))); last first.
    { intros i x _. simpl. f_equal. lia. }
    cbn [gold_spans_from token_labels map].
    destruct (py_in t all_labels) eqn:Et.
    + unfold new_Span. rewrite bool_decide_eq_true_2 by lia.
      cbn [mbind option_bind]. rewrite IH by lia.
      rewrite Nat.add_0_r, <- !app_assoc. reflexivity.
    + cbn [mbind option_bind]. rewrite IH by lia.
      rewrite <- !app_assoc. reflexivity.
Qed.

(** The gold spans start at increasing positions of the document, and each
    covers the one position it starts at. *)
Lemma gold_spans_starts_sublist (all_labels : list string) (pos : list string) (k : nat) :
  span_start <$> gold_spans_from all_labels k pos `sublist_of` seq k (length pos).
Proof.
  revert k. induction pos as [|t rest IH]; intros k; simpl; [constructor|].
  destruct (py_in t all_labels); simpl.
  - apply sublist_skip, IH.
  - apply sublist_cons, IH.
Qed.

Lemma gold_spans_covered (all_labels : list string) (pos : list string) (k : nat) :
  covered (gold_spans_from all_labels k pos) =
    span_start <$> gold_spans_from all_labels k pos.
Proof.
  revert k. induction pos as [|t rest IH]; intros k; simpl; [reflexivity|].
  destruct (py_in t all_labels); [|apply IH].
  unfold covered in *. simpl. rewrite IH.
  replace (k + 1 - k) with 1 by lia. reflexivity.
Qed.

Lemma gold_spans_NoDup_starts (all_labels : list string) (pos : list string) (k : nat) :
  NoDup (span_start <$> gold_spans_from all_labels k pos).
Proof.
  eapply sublist_NoDup; [apply NoDup_seq | apply gold_spans_starts_sublist].
Qed.

Lemma gold_spans_elem_of (all_labels : list string) (pos : list string) (k : nat) (sp : Span) :
  sp ∈ gold_spans_from all_labels k pos ↔
  ∃ i t, pos !! i = Some t ∧ t ∈ all_labels ∧ sp = mkSpan (k + i) (k + i + 1) t.
Proof.
  revert k. induction pos as [|t0 rest IH]; intros k; simpl.
  - split; [by intros ?%elem_of_nil | by intros (i & t & ? & _)].
  - assert (Hrest : sp ∈ gold_spans_from all_labels (S k) rest ↔
      ∃ i t, (t0 :: rest) !! S i = Some t ∧ t ∈ all_labels ∧
             sp = mkSpan (k + S i) (k + S i + 1) t).
    { rewrite IH. split; intros (i & t & Hi & Ht & ->); exists i, t;
        (split; [exact Hi|]); (split; [exact Ht|]); f_equal; lia. }
    destruct (py_in t0 all_labels) eqn:E0.
    + rewrite elem_of_cons, Hrest. split.
      * intros [-> | (i & t & Hi & Ht & ->)].
        -- exists 0, t0. split; [done|]. split; [by apply py_in_elem_of|].
           f_equal; lia.
        -- by exists (S i), t.
      * intros ([|i] & t & Hi & Ht & ->).
        -- left. simpl in Hi. injection Hi as ->. f_equal; lia.
        -- right. by exists i, t.
    + rewrite Hrest. split.
      * intros (i & t & Hi & Ht & ->). by exists (S i), t.
      * intros ([|i] & t & Hi & Ht & ->).
        -- simpl in Hi. injection Hi as ->.
           apply py_in_elem_of in Ht. congruence.
        -- by exists i, t.
Qed.

Lemma gold_spans_length (all_labels : list string) (pos : list string) (k : nat) :
  length (gold_spans_from all_labels k pos) =
    length (filter (fun t => t ∈ all_labels) pos).
Proof.
  revert k. induction pos as [|t rest IH]; intros k; simpl; [reflexivity|].
  rewrite filter_cons. destruct (py_in t all_labels) eqn:E.
  - rewrite decide_True by by apply py_in_elem_of. simpl. by rewrite IH.
  - rewrite decide_False by by apply py_in_false. apply IH.
Qed.

Lemma filter_tokens_length (all_labels : list string) (pos : list string)
    (f : nat → string → Token) :
  (∀ i t, tok_pos_ (f i t) = t) →
  length (filter (fun tok => tok_pos_ tok ∈ all_labels) (imap f pos)) =
    length (filter (fun t => t ∈ all_labels) pos).
Proof.
  revert f. induction pos as [|t rest IH]; intros f Hf; [reflexivity|].
  rewrite imap_cons, !filter_cons, Hf.
  destruct (decide (t ∈ all_labels)); simpl; rewrite IH; try done;
    intros i t'; apply Hf.
Qed.

Lemma matching_tokens_length (all_labels : list string) (d : Doc) :
  length (matching_tokens all_labels d) =
    length (filter (fun t => t ∈ all_labels) (doc_pos d)).
Proof. by apply filter_tokens_length. Qed.

Lemma token_labels_lookup (all_labels : list string) (pos : list string) (i : nat) (t : string) :
  pos !! i = Some t →
  token_labels all_labels pos !! i = Some (if decide (t ∈ all_labels) then t else "X").
Proof.
  intros Hi. unfold token_labels.
  change (map ?f pos) with (f <$> pos).
  rewrite list_lookup_fmap, Hi. simpl. f_equal.
  destruct (py_in t all_labels) eqn:E.
  - by rewrite decide_True by by apply py_in_elem_of.
  - by rewrite decide_False by by apply py_in_false.
Qed.

Lemma nonempty_labels_elem_of (all_labels : list string) (t : string) :
  t ∈ nonempty_labels all_labels ↔ t ∈ all_labels ∧ t ≠ "".
Proof. unfold nonempty_labels. rewrite list_elem_of_filter. tauto. Qed.

(** The spans with a label, among the spans the loop builds, are the spans
    the loop builds for the allow-list without the empty string. *)
Lemma gold_spans_labeled (all_labels : list string) (pos : list string) (k : nat) :
  filter (fun sp => span_label sp ≠ "") (gold_spans_from all_labels k pos) =
    gold_spans_from (nonempty_labels all_labels) k pos.
Proof.
  revert k. induction pos as [|t rest IH]; intros k; simpl; [reflexivity|].
  destruct (py_in t all_labels) eqn:E.
  - rewrite filter_cons. cbn [span_label]. case_decide as Ht.
    + assert (py_in t (nonempty_labels all_labels) = true) as ->.
      { apply py_in_elem_of, nonempty_labels_elem_of.
        split; [by apply py_in_elem_of | done]. }
      by rewrite IH.
    + assert (py_in t (nonempty_labels all_labels) = false) as ->.
      { apply py_in_false. rewrite nonempty_labels_elem_of. tauto. }
      apply IH.
  - assert (py_in t (nonempty_labels all_labels) = false) as ->.
    { apply py_in_false. rewrite nonempty_labels_elem_of.
      apply py_in_false in E. tauto. }
    apply IH.
Qed.

(** The body of the loop over the documents never fails, and computes the
    closed forms. *)
Lemma set_gold_labels_closed_form (d : Doc) (all_labels : list string) :
  set_gold_labels d all_labels =
    Some (mkDoc (doc_pos d)
                (gold_spans_from (nonempty_labels all_labels) 0 (doc_pos d)),
          token_labels all_labels (doc_pos d)).
Proof.
  unfold set_gold_labels, doc_tokens.
  change (imap mkToken (doc_pos d))
    with (imap (fun i => mkToken (0 + i)) (doc_pos d)).
  rewrite gold_loop_closed_form by (simpl; lia). cbn [mbind option_bind app].
  unfold set_ents. rewrite bool_decide_eq_true_2.
  - by rewrite gold_spans_labeled.
  - rewrite gold_spans_covered. apply gold_spans_NoDup_starts.
Qed.

Lemma mapM_total {A B : Type} (f : A → option B) (g : A → B) (l : list A) :
  (∀ x, f x = Some (g x)) → mapM f l = Some (g <$> l).
Proof.
  intros Hf. apply mapM_Some_2.
  induction l as [|x l IH]; simpl; constructor; [apply Hf | apply IH].
Qed.

Lemma load_data_split_closed_form corpus split all_labels subset data :
  corpus (corpus_path split) = Some data →
  load_data_split corpus split all_labels subset =
    Some (gold_doc all_labels <$> truncate data subset).
Proof.
  intros Hdata. unfold load_data_split. rewrite Hdata. cbn [mbind option_bind].
  change (map ?f ?l) with (f <$> l).
  rewrite (mapM_total _ (fun d => mkDoc (doc_pos d)
             (gold_spans_from (nonempty_labels all_labels) 0 (doc_pos d)))).
  - by rewrite <- list_fmap_compose.
  - intros d. by rewrite set_gold_labels_closed_form.
Qed.

Lemma py_slice_to_nonneg {A : Type} (data : list A) (n : Z) :
  (0 ≤ n)%Z → py_slice_to data n = take (Z.to_nat n) data.
Proof.
  intros Hn. unfold py_slice_to.
  destruct (Z.ltb_spec n 0) as [?|_]; [lia|reflexivity].
Qed.

Lemma py_slice_to_prefix {A : Type} (data : list A) (n : Z) :
  py_slice_to data n `prefix_of` data.
Proof. unfold py_slice_to. destruct (n <? 0)%Z; apply prefix_take. Qed.

Lemma truncate_prefix (data : list Example) (subset : option Z) :
  truncate data subset `prefix_of` data.
Proof. destruct subset as [n|]; [apply py_slice_to_prefix | done]. Qed.

Lemma fmap_prefix {A B : Type} (f : A → B) (l1 l2 : list A) :
  l1 `prefix_of` l2 → f <$> l1 `prefix_of` f <$> l2.
Proof. intros [k ->]. exists (f <$> k). apply fmap_app. Qed.

(** C5, as amended.  When the file of the split is there, the loader
    returns one document per record kept, with the tokens of the record's
    reference document.  Its annotations do not depend on the annotations
    the reference document had: they are, without repetition, the spans
    [i, i+1) labeled [t] for the positions [i] whose tag [t] is in the
    allow-list and is not the empty string; and the list [tok_pos] of the
    loop has one entry per token, the token's tag when it is in the
    allow-list and X otherwise. *)
Theorem load_data_split_gold_spans (corpus : string → option (list Example))
    (split : string) (all_labels : list string) (subset : option Z)
    (data : list Example) :
  corpus (corpus_path split) = Some data →
  ∃ docs,
    load_data_split corpus split all_labels subset = Some docs ∧
    length docs = length (truncate data subset) ∧
    ∀ k ex, truncate data subset !! k = Some ex →
      ∃ d' tok_pos,
        docs !! k = Some d' ∧
        set_gold_labels (doc_copy (reference ex)) all_labels = Some (d', tok_pos) ∧
        doc_pos d' = doc_pos (reference ex) ∧
        NoDup (doc_ents d') ∧
        (∀ sp, sp ∈ doc_ents d' ↔
           ∃ i t, doc_pos (reference ex) !! i = Some t ∧
                  t ∈ all_labels ∧ t ≠ "" ∧
                  sp = mkSpan i (i + 1) t) ∧
        length tok_pos = length (doc_pos (reference ex)) ∧
        (∀ i t, doc_pos (reference ex) !! i = Some t →
           tok_pos !! i = Some (if decide (t ∈ all_labels) then t else "X")).
Proof.
  intros Hdata. rewrite (load_data_split_closed_form _ _ _ _ _ Hdata).
  eexists. split; [reflexivity|]. split; [apply length_fmap|].
  intros k ex Hk.
  exists (gold_doc all_labels ex), (token_labels all_labels (doc_pos (reference ex))).
  split; [by rewrite list_lookup_fmap, Hk|].
  split; [by rewrite set_gold_labels_closed_form|].
  split; [reflexivity|].
  split; [eapply NoDup_fmap_1, gold_spans_NoDup_starts|].
  split; [|split].
  - intros sp. unfold gold_doc. cbn [doc_ents]. rewrite gold_spans_elem_of.
    split.
    + intros (i & t & Hi & [Ht Hne]%nonempty_labels_elem_of & ->).
      by exists i, t.
    + intros (i & t & Hi & Ht & Hne & ->). exists i, t.
      split; [done|]. split; [by apply nonempty_labels_elem_of|done].
  - unfold token_labels. apply length_map.
  - intros i t. apply token_labels_lookup.
Qed.

Lemma load_data_split_gold_spans_witness :
  ∃ docs,
    load_data_split toy_corpus "train" ["DET"] (Some 1%Z) = Some docs ∧
    length docs = length (truncate toy_data (Some 1%Z)) ∧
    ∀ k ex, truncate toy_data (Some 1%Z) !! k = Some ex →
      ∃ d' tok_pos,
        docs !! k = Some d' ∧
        set_gold_labels (doc_copy (reference ex)) ["DET"] = Some (d', tok_pos) ∧
        doc_pos d' = doc_pos (reference ex) ∧
        NoDup (doc_ents d') ∧
        (∀ sp, sp ∈ doc_ents d' ↔
           ∃ i t, doc_pos (reference ex) !! i = Some t ∧
                  t ∈ ["DET"] ∧ t ≠ "" ∧
                  sp = mkSpan i (i + 1) t) ∧
        length tok_pos = length (doc_pos (reference ex)) ∧
        (∀ i t, doc_pos (reference ex) !! i = Some t →
           tok_pos !! i = Some (if decide (t ∈ ["DET"]) then t else "X")).
Proof.
  apply (load_data_split_gold_spans toy_corpus "train" ["DET"] (Some 1%Z) toy_data).
  reflexivity.
Defined.

(** C5, as the specification states it, fails on a token without tag.  In
    the one document of this corpus the second token has the empty tag,
    which is in the allow-list; the loop builds a span for it, and the
    document returned holds the span of the first token only. *)
Lemma load_data_split_untagged_token :
  load_data_split untagged_corpus "train" [""; "DET"] None =
    Some [mkDoc ["DET"; ""; "NOUN"] [mkSpan 0 1 "DET"]] ∧
  ["DET"; ""; "NOUN"] !! 1 = Some "" ∧
  "" ∈ [""; "DET"] ∧
  mkSpan 1 2 "" ∉ [mkSpan 0 1 "DET"].
Proof.
  split; [reflexivity|]. split; [reflexivity|]. split; [left|].
  by intros [=]%list_elem_of_singleton.
Qed.

(** The loader on the first record of the toy corpus: the annotation the
    reference document had is gone, and the two tokens tagged DET have one
    span each. *)
Lemma load_data_split_toy :
  load_data_split toy_corpus "train" ["DET"] (Some 1%Z) =
    Some [mkDoc ["DET"; "NOUN"; "DET"; "VERB"] [mkSpan 0 1 "DET"; mkSpan 2 3 "DET"]].
Proof. reflexivity. Qed.

(** The distinct tags of the allow-list present in a document are at most
    as many as the tokens whose tag is in the allow-list. *)
Lemma distinct_present_le (all_labels : list string) (d : Doc) :
  distinct_present all_labels d ≤
    length (filter (fun t => t ∈ all_labels) (doc_pos d)).
Proof.
  unfold distinct_present. apply submseteq_length, NoDup_submseteq.
  - apply NoDup_remove_dups.
  - intros t. rewrite elem_of_remove_dups, !list_elem_of_filter. tauto.
Qed.

(** C6, as amended.  When the file of the split is there the loader
    returns, and each document it returns has exactly one span per token
    whose tag is in the allow-list and is not the empty string: at least K
    spans, for K the number of distinct non-empty tags of the allow-list
    present among the tokens, at most N spans, for N the number of tokens,
    and no span when no token has a tag of the allow-list. *)
Theorem load_data_split_span_count (corpus : string → option (list Example))
    (split : string) (all_labels : list string) (subset : option Z)
    (data : list Example) :
  corpus (corpus_path split) = Some data →
  ∃ docs,
    load_data_split corpus split all_labels subset = Some docs ∧
    ∀ k ex, truncate data subset !! k = Some ex →
      ∃ d',
        docs !! k = Some d' ∧
        length (doc_ents d') =
          length (matching_tokens (nonempty_labels all_labels) (reference ex)) ∧
        distinct_present (nonempty_labels all_labels) (reference ex) ≤
          length (doc_ents d') ∧
        length (doc_ents d') ≤ length (doc_pos (reference ex)) ∧
        ((∀ t, t ∈ doc_pos (reference ex) → t ∉ all_labels) → doc_ents d' = []).
Proof.
  intros Hdata. rewrite (load_data_split_closed_form _ _ _ _ _ Hdata).
  eexists. split; [reflexivity|].
  intros k ex Hk. exists (gold_doc all_labels ex).
  split; [by rewrite list_lookup_fmap, Hk|].
  unfold gold_doc. cbn [doc_ents]. rewrite gold_spans_length.
  split; [by rewrite matching_tokens_length|].
  split; [apply distinct_present_le|].
  split; [apply length_filter|].
  intros Hnone.
  destruct (gold_spans_from (nonempty_labels all_labels) 0 (doc_pos (reference ex)))
    as [|sp l] eqn:E; [reflexivity|].
  assert (Hsp : sp ∈ gold_spans_from (nonempty_labels all_labels) 0
                       (doc_pos (reference ex)))
    by (rewrite E; left).
  apply gold_spans_elem_of in Hsp
    as (i & t & Hi & [Ht _]%nonempty_labels_elem_of & _).
  exfalso. eapply Hnone; [|exact Ht]. by eapply list_elem_of_lookup_2.
Qed.

Lemma load_data_split_span_count_witness :
  ∃ docs,
    load_data_split toy_corpus "train" ["DET"; "ADJ"] None = Some docs ∧
    ∀ k ex, truncate toy_data None !! k = Some ex →
      ∃ d',
        docs !! k = Some d' ∧
        length (doc_ents d') =
          length (matching_tokens (nonempty_labels ["DET"; "ADJ"]) (reference ex)) ∧
        distinct_present (nonempty_labels ["DET"; "ADJ"]) (reference ex) ≤
          length (doc_ents d') ∧
        length (doc_ents d') ≤ length (doc_pos (reference ex)) ∧
        ((∀ t, t ∈ doc_pos (reference ex) → t ∉ ["DET"; "ADJ"]) → doc_ents d' = []).
Proof.
  apply (load_data_split_span_count toy_corpus "train" ["DET"; "ADJ"] None toy_data).
  reflexivity.
Defined.

(** C6, as the specification states it, fails.  The first document of the
    toy corpus has four tokens; the allow-list holds K = 1 distinct tag
    present among them, DET; the loader puts two spans on the document, one
    per token tagged DET. *)
Lemma load_data_split_spans_not_distinct_tags :
  load_data_split toy_corpus "train" ["DET"] (Some 1%Z) =
    Some [mkDoc ["DET"; "NOUN"; "DET"; "VERB"] [mkSpan 0 1 "DET"; mkSpan 2 3 "DET"]] ∧
  distinct_present ["DET"] (mkDoc ["DET"; "NOUN"; "DET"; "VERB"] [mkSpan 0 4 "OLD"]) = 1 ∧
  length [mkSpan 0 1 "DET"; mkSpan 2 3 "DET"] ≠
    distinct_present ["DET"] (mkDoc ["DET"; "NOUN"; "DET"; "VERB"] [mkSpan 0 4 "OLD"]).
Proof. split; [reflexivity|]. split; [by vm_compute|]. vm_compute. lia. Qed.

(** C7, as amended.  When the file of the split is there the loader
    returns for every [subset]; for every integer M the result with
    [subset = M] is a prefix of the result without [subset]; for M >= 0 it
    has at most M documents; and for 0 <= M <= M' the result with
    [subset = M] is a prefix of the result with [subset = M']. *)
Theorem load_data_split_subset_prefix (corpus : string → option (list Example))
    (split : string) (all_labels : list string) (data : list Example) (m m' : Z) :
  corpus (corpus_path split) = Some data →
  ∃ full docs docs',
    load_data_split corpus split all_labels None = Some full ∧
    load_data_split corpus split all_labels (Some m) = Some docs ∧
    load_data_split corpus split all_labels (Some m') = Some docs' ∧
    docs `prefix_of` full ∧
    ((0 ≤ m)%Z → (Z.of_nat (length docs) ≤ m)%Z) ∧
    ((0 ≤ m ≤ m')%Z → docs `prefix_of` docs').
Proof.
  intros Hdata. rewrite !(load_data_split_closed_form _ _ _ _ _ Hdata).
  eexists _, _, _. split; [reflexivity|]. split; [reflexivity|]. split; [reflexivity|].
  cbn [truncate]. split; [|split].
  - apply fmap_prefix, py_slice_to_prefix.
  - intros Hm. rewrite length_fmap, py_slice_to_nonneg, length_take by done. lia.
  - intros [Hm Hmm'].
    rewrite !py_slice_to_nonneg by lia. apply fmap_prefix.
    replace (take (Z.to_nat m) data)
      with (take (Z.to_nat m) (take (Z.to_nat m') data)).
    + apply prefix_take.
    + rewrite take_take. f_equal. lia.
Qed.

Lemma load_data_split_subset_prefix_witness :
  ∃ full docs docs',
    load_data_split toy_corpus "train" ["DET"] None = Some full ∧
    load_data_split toy_corpus "train" ["DET"] (Some 1%Z) = Some docs ∧
    load_data_split toy_corpus "train" ["DET"] (Some 2%Z) = Some docs' ∧
    docs `prefix_of` full ∧
    ((0 ≤ 1)%Z → (Z.of_nat (length docs) ≤ 1)%Z) ∧
    ((0 ≤ 1 ≤ 2)%Z → docs `prefix_of` docs').
Proof.
  apply (load_data_split_subset_prefix toy_corpus "train" ["DET"] toy_data 1 2).
  reflexivity.
Defined.

(** C7, as the specification states it, fails on negative integers.  With
    [subset = -1] the loader drops the last of the three records of the toy
    corpus and returns two documents, which is more than -1; and although
    -1 <= 0, these two documents are not a prefix of the empty result for
    [subset = 0]. *)
Lemma load_data_split_negative_subset :
  ∃ docs,
    load_data_split toy_corpus "train" ["DET"] (Some (-1)%Z) = Some docs ∧
    length docs = 2 ∧
    ¬ (Z.of_nat (length docs) ≤ -1)%Z ∧
    load_data_split toy_corpus "train" ["DET"] (Some 0%Z) = Some [] ∧
    (-1 ≤ 0)%Z ∧
    ¬ docs `prefix_of` [].
Proof.
  eexists. split; [reflexivity|]. split; [reflexivity|].
  split; [simpl; lia|]. split; [reflexivity|]. split; [lia|].
  intros [k Hk]. discriminate Hk.
Qed.

(* ===================================================================== *)
(** * Part III: further properties *)
(* ===================================================================== *)

(** ** The tag mapper *)

(** The two ways the mapper answers: by the compound rule, or with one of
    its category constants. *)
Lemma penntreebank2universal_cases (tag : string) :
  (str_startswith_any tag ["NNP-"; "NNPS-"] = true ∧
   ∃ seg, has_char hyphen seg = false ∧
          penntreebank2universal tag = "NOUN-" +:+ seg) ∨
  (str_startswith_any tag ["NNP-"; "NNPS-"] = false ∧
   py_in (penntreebank2universal tag) categories = true).
Proof.
  destruct (str_startswith_any tag ["NNP-"; "NNPS-"]) eqn:Hc.
  - left. split; [reflexivity|].
    destruct (has_char_last_occurrence hyphen tag (compound_has_hyphen tag Hc))
      as (p & seg & -> & Hseg).
    exists seg. split; [done|]. by apply penntreebank2universal_last_segment.
  - right. split; [reflexivity|].
    unfold penntreebank2universal. rewrite Hc.
    repeat match goal with
    | |- context [py_in tag ?l] => destruct (py_in tag l)
    end; reflexivity.
Qed.

(** X1.  The mapper answers either NOUN- followed by a segment without
    hyphen, or one of its fourteen category strings; it never answers ADP,
    the one constant of the script no branch returns, and never the empty
    string. *)
Theorem penntreebank2universal_range (tag : string) :
  ((∃ seg, has_char hyphen seg = false ∧
           penntreebank2universal tag = "NOUN-" +:+ seg) ∨
   penntreebank2universal tag ∈ categories) ∧
  penntreebank2universal tag ≠ ADP ∧
  penntreebank2universal tag ≠ "".
Proof.
  destruct (penntreebank2universal_cases tag) as [(_ & seg & Hseg & E)|(_ & Hin)].
  - split; [left; by exists seg|]. rewrite E. split; discriminate.
  - split; [right; by apply py_in_elem_of|].
    split; intros E; rewrite E in Hin; discriminate Hin.
Qed.

Lemma compound_starts_with_NOUN (tag : string) :
  str_startswith_any tag ["NNP-"; "NNPS-"] = true →
  str_startswith (penntreebank2universal tag) "NOUN-" = true.
Proof. intros Hc. unfold penntreebank2universal. by rewrite Hc. Qed.

(** Decide a goal or a hypothesis about the mapper on a tag that is known
    to be in or out of each tuple. *)
Ltac mapper_branches H :=
  repeat match type of H with
  | context [py_in ?tag ?l] =>
      let E := fresh "E" in destruct (py_in tag l) eqn:E; cbv beta iota in H
  end.

Ltac row_exact :=
  let tag := fresh "tag" in
  let H := fresh "H" in
  intros tag; cbn [fst snd]; split;
  [ intros H;
    destruct (str_startswith_any tag ["NNP-"; "NNPS-"]) eqn:Hc;
    [ apply compound_starts_with_NOUN in Hc; rewrite H in Hc; discriminate Hc
    | unfold penntreebank2universal in H; rewrite Hc in H;
      mapper_branches H;
      first [ discriminate H | by apply py_in_elem_of ] ]
  | intros H;
    repeat (apply elem_of_cons in H as [-> | H]; [reflexivity|]);
    by apply elem_of_nil in H ].

(** X2.  The tuples of the mapper are exact: a category constant is
    answered for the tags of its tuple and for no other string, the
    compound tags included. *)
Theorem penntreebank2universal_rows_exact :
  Forall (fun row => ∀ tag, penntreebank2universal tag = row.2 ↔ tag ∈ row.1)
         mapper_rows.
Proof. unfold mapper_rows. repeat (constructor; [row_exact|]). constructor. Qed.

Lemma penntreebank2universal_rows_exact_witness :
  penntreebank2universal "VBD" = "VERB".
Proof.
  apply (proj2 (Forall_lookup_1 _ _ 2 _ penntreebank2universal_rows_exact eq_refl "VBD")).
  apply py_in_elem_of. reflexivity.
Defined.

Lemma table_tags_not_fallback :
  forallb (fun t => negb (String.eqb (penntreebank2universal t) X)) table_tags = true.
Proof. reflexivity. Qed.

(** X3.  The fallback X is answered for exactly the strings that neither
    start with NNP- or NNPS- nor occur in a tuple of the mapper: no tag of
    a tuple, and no compound tag, is mapped to X. *)
Theorem penntreebank2universal_fallback_exact (tag : string) :
  penntreebank2universal tag = X ↔
  str_startswith_any tag ["NNP-"; "NNPS-"] = false ∧ tag ∉ table_tags.
Proof.
  split.
  - intros H. destruct (str_startswith_any tag ["NNP-"; "NNPS-"]) eqn:Hc.
    + apply compound_starts_with_NOUN in Hc. rewrite H in Hc. discriminate Hc.
    + split; [reflexivity|]. intros Hin.
      pose proof table_tags_not_fallback as Hall.
      rewrite forallb_forall in Hall.
      apply list_elem_of_In, Hall in Hin.
      rewrite H in Hin. discriminate Hin.
  - intros [Hc Hnot]. unfold penntreebank2universal. rewrite Hc.
    repeat match goal with
    | |- context [py_in tag ?l] =>
        rewrite (py_in_outside_table tag l Hnot) by reflexivity
    end.
    reflexivity.
Qed.

Lemma penntreebank2universal_fallback_exact_witness :
  str_startswith_any "NNPX" ["NNP-"; "NNPS-"] = false ∧ "NNPX" ∉ table_tags.
Proof.
  apply (proj1 (penntreebank2universal_fallback_exact "NNPX")). reflexivity.
Defined.

(** X4.  The mapper is not idempotent: none of its answers is a tag it
    knows, so that mapping a tag twice gives X whatever the tag. *)
Theorem penntreebank2universal_twice (tag : string) :
  penntreebank2universal (penntreebank2universal tag) = X.
Proof.
  destruct (penntreebank2universal_cases tag) as [(_ & seg & _ & ->)|(_ & Hin)].
  - reflexivity.
  - apply py_in_elem_of in Hin.
    repeat (apply elem_of_cons in Hin as [-> | Hin]; [reflexivity|]).
    by apply elem_of_nil in Hin.
Qed.

(** ** The corpus loader *)

Lemma py_slice_to_fmap {A B : Type} (f : A → B) (data : list A) (n : Z) :
  py_slice_to (f <$> data) n = f <$> py_slice_to data n.
Proof.
  unfold py_slice_to. rewrite length_fmap.
  destruct (n <? 0)%Z; by rewrite fmap_take.
Qed.

(** X5.  Reading the file of the split is the only step of the loader that
    can fail: the range check of the span constructor and the overlap check
    of [set_ents] never refuse the spans the loop builds, whatever the
    documents, the allow-list and [subset] are. *)
Theorem load_data_split_fails_only_on_corpus (corpus : string → option (list Example))
    (split : string) (all_labels : list string) (subset : option Z) :
  load_data_split corpus split all_labels subset = None ↔
  corpus (corpus_path split) = None.
Proof.
  destruct (corpus (corpus_path split)) as [data|] eqn:Hdata.
  - rewrite (load_data_split_closed_form _ _ _ _ _ Hdata). split; discriminate.
  - unfold load_data_split. rewrite Hdata. done.
Qed.

Lemma load_data_split_fails_only_on_corpus_witness :
  load_data_split toy_corpus "dev" ["DET"] None = None.
Proof.
  apply (proj2 (load_data_split_fails_only_on_corpus toy_corpus "dev" ["DET"] None)).
  reflexivity.
Defined.

(** X6.  [subset] only selects: the result with [subset = m] is the slice
    [[:m]] of the result without [subset], for every integer [m] (negative
    ones included), so the annotations of a document do not depend on how
    many documents are kept. *)
Theorem load_data_split_subset_is_slice (corpus : string → option (list Example))
    (split : string) (all_labels : list string) (m : Z) :
  load_data_split corpus split all_labels (Some m) =
    (fun full => py_slice_to full m) <$> load_data_split corpus split all_labels None.
Proof.
  destruct (corpus (corpus_path split)) as [data|] eqn:Hdata.
  - rewrite !(load_data_split_closed_form _ _ _ _ _ Hdata).
    cbn [truncate fmap option_fmap option_map]. by rewrite py_slice_to_fmap.
  - unfold load_data_split. by rewrite Hdata.
Qed.

(** X7.  The number of documents returned: all the records without
    [subset]; with [subset = m >= 0] the smaller of [m] and the number of
    records; with [subset = m < 0] the number of records less [-m], and
    none when there are not that many. *)
Theorem load_data_split_length (corpus : string → option (list Example))
    (split : string) (all_labels : list string) (subset : option Z)
    (data : list Example) :
  corpus (corpus_path split) = Some data →
  ∃ docs,
    load_data_split corpus split all_labels subset = Some docs ∧
    Z.of_nat (length docs) =
      match subset with
      | Some m => slice_len (length data) m
      | None => Z.of_nat (length data)
      end.
Proof.
  intros Hdata. rewrite (load_data_split_closed_form _ _ _ _ _ Hdata).
  eexists. split; [reflexivity|]. rewrite length_fmap.
  destruct subset as [m|]; [|reflexivity].
  cbn [truncate]. unfold py_slice_to, slice_len.
  destruct (Z.ltb_spec m 0); rewrite length_take; lia.
Qed.

Lemma load_data_split_length_witness :
  ∃ docs,
    load_data_split toy_corpus "train" ["DET"] (Some (-2)%Z) = Some docs ∧
    Z.of_nat (length docs) = slice_len (length toy_data) (-2).
Proof.
  apply (load_data_split_length toy_corpus "train" ["DET"] (Some (-2)%Z) toy_data).
  reflexivity.
Defined.

Lemma gold_spans_from_ext (l1 l2 : list string) (pos : list string) (k : nat) :
  (∀ t, t ∈ l1 ↔ t ∈ l2) →
  gold_spans_from l1 k pos = gold_spans_from l2 k pos.
Proof.
  intros Hset. revert k. induction pos as [|t rest IH]; intros k; simpl; [reflexivity|].
  assert (py_in t l1 = py_in t l2) as ->.
  { apply eq_true_iff_eq. rewrite !py_in_elem_of. apply Hset. }
  by rewrite IH.
Qed.

(** X8.  The allow-list is used as a set: two lists with the same elements,
    in any order and with any repetitions, give the same result. *)
Theorem load_data_split_allow_list_as_set (corpus : string → option (list Example))
    (split : string) (l1 l2 : list string) (subset : option Z) :
  (∀ t, t ∈ l1 ↔ t ∈ l2) →
  load_data_split corpus split l1 subset = load_data_split corpus split l2 subset.
Proof.
  intros Hset. destruct (corpus (corpus_path split)) as [data|] eqn:Hdata.
  - rewrite !(load_data_split_closed_form _ _ _ _ _ Hdata). f_equal.
    apply list_fmap_ext. intros _ ex _. unfold gold_doc.
    rewrite (gold_spans_from_ext (nonempty_labels l1) (nonempty_labels l2)); [done|].
    intros t. rewrite !nonempty_labels_elem_of, Hset. tauto.
  - unfold load_data_split. by rewrite Hdata.
Qed.

Lemma load_data_split_allow_list_as_set_witness :
  load_data_split toy_corpus "train" ["DET"; "NOUN"] None =
    load_data_split toy_corpus "train" ["NOUN"; "DET"; "DET"] None.
Proof.
  apply (load_data_split_allow_list_as_set toy_corpus "train").
  intros t. rewrite !elem_of_cons, !elem_of_nil. tauto.
Defined.

Lemma gold_spans_from_mono (l1 l2 : list string) (pos : list string) (k : nat) :
  (∀ t, t ∈ l1 → t ∈ l2) →
  gold_spans_from l1 k pos `sublist_of` gold_spans_from l2 k pos.
Proof.
  intros Hsub. revert k. induction pos as [|t rest IH]; intros k; simpl; [constructor|].
  destruct (py_in t l1) eqn:E1.
  - apply py_in_elem_of, Hsub, py_in_elem_of in E1. rewrite E1.
    apply sublist_skip, IH.
  - destruct (py_in t l2); [apply sublist_cons, IH | apply IH].
Qed.

(** X9.  A larger allow-list only adds spans: when every tag of [l1] is in
    [l2], the two results have the same documents, and the spans of each
    document for [l1] are, in order, among its spans for [l2]. *)
Theorem load_data_split_allow_list_mono (corpus : string → option (list Example))
    (split : string) (l1 l2 : list string) (subset : option Z)
    (data : list Example) :
  (∀ t, t ∈ l1 → t ∈ l2) →
  corpus (corpus_path split) = Some data →
  ∃ docs1 docs2,
    load_data_split corpus split l1 subset = Some docs1 ∧
    load_data_split corpus split l2 subset = Some docs2 ∧
    Forall2 (fun d1 d2 => doc_pos d1 = doc_pos d2 ∧
                          doc_ents d1 `sublist_of` doc_ents d2) docs1 docs2.
Proof.
  intros Hsub Hdata. rewrite !(load_data_split_closed_form _ _ _ _ _ Hdata).
  eexists _, _. split; [reflexivity|]. split; [reflexivity|].
  apply Forall2_fmap, Forall_Forall2_diag, Forall_forall.
  intros ex _. split; [reflexivity|]. apply gold_spans_from_mono.
  intros t. rewrite !nonempty_labels_elem_of. intros [Ht Hne].
  split; [by apply Hsub | done].
Qed.

Lemma load_data_split_allow_list_mono_witness :
  ∃ docs1 docs2,
    load_data_split toy_corpus "train" ["DET"] None = Some docs1 ∧
    load_data_split toy_corpus "train" ["NOUN"; "DET"] None = Some docs2 ∧
    Forall2 (fun d1 d2 => doc_pos d1 = doc_pos d2 ∧
                          doc_ents d1 `sublist_of` doc_ents d2) docs1 docs2.
Proof.
  apply (load_data_split_allow_list_mono toy_corpus "train" ["DET"] ["NOUN"; "DET"]
           None toy_data).
  - intros t. rewrite !elem_of_cons. tauto.
  - reflexivity.
Defined.

Lemma gold_spans_sorted (all_labels : list string) (pos : list string) (k : nat) :
  StronglySorted (fun a b => span_end a ≤ span_start b)
                 (gold_spans_from all_labels k pos).
Proof.
  revert k. induction pos as [|t rest IH]; intros k; simpl; [constructor|].
  destruct (py_in t all_labels); [|apply IH].
  constructor; [apply IH|].
  apply Forall_forall. intros sp (i & t' & _ & _ & ->)%gold_spans_elem_of.
  simpl. lia.
Qed.

(** X10.  On every document the loader returns, the spans are in document
    order and do not overlap (each span ends where a later span starts, or
    before), and every span lies within the document. *)
Theorem load_data_split_spans_sorted (corpus : string → option (list Example))
    (split : string) (all_labels : list string) (subset : option Z)
    (docs : list Doc) :
  load_data_split corpus split all_labels subset = Some docs →
  Forall (fun d =>
            StronglySorted (fun a b => span_end a ≤ span_start b) (doc_ents d) ∧
            Forall (fun sp => span_start sp < span_end sp ≤ length (doc_pos d))
                   (doc_ents d))
         docs.
Proof.
  destruct (corpus (corpus_path split)) as [data|] eqn:Hdata.
  - rewrite (load_data_split_closed_form _ _ _ _ _ Hdata). intros [= <-].
    apply Forall_fmap, Forall_forall. intros ex _. unfold gold_doc. simpl.
    split; [apply gold_spans_sorted|].
    apply Forall_forall. intros sp (i & t & Hi & _ & ->)%gold_spans_elem_of.
    apply lookup_lt_Some in Hi. simpl. lia.
  - unfold load_data_split. rewrite Hdata. discriminate.
Qed.

Lemma load_data_split_spans_sorted_witness :
  Forall (fun d =>
            StronglySorted (fun a b => span_end a ≤ span_start b) (doc_ents d) ∧
            Forall (fun sp => span_start sp < span_end sp ≤ length (doc_pos d))
                   (doc_ents d))
         [mkDoc ["DET"; "NOUN"; "DET"; "VERB"] [mkSpan 0 1 "DET"; mkSpan 2 3 "DET"]].
Proof.
  apply (load_data_split_spans_sorted toy_corpus "train" ["DET"] (Some 1%Z)).
  reflexivity.
Defined.

(** X11.  Setting the gold labels again overwrites: running the loop of the
    loader with an allow-list [l2] on the documents loaded with [l1] gives
    the documents loaded with [l2]; with the same allow-list it leaves the
    documents as they are. *)
Theorem load_data_split_relabel (corpus : string → option (list Example))
    (split : string) (l1 l2 : list string) (subset : option Z)
    (data : list Example) :
  corpus (corpus_path split) = Some data →
  ∃ docs1 docs2,
    load_data_split corpus split l1 subset = Some docs1 ∧
    load_data_split corpus split l2 subset = Some docs2 ∧
    Forall2 (fun d1 d2 => fst <$> set_gold_labels d1 l2 = Some d2) docs1 docs2.
Proof.
  intros Hdata. rewrite !(load_data_split_closed_form _ _ _ _ _ Hdata).
  eexists _, _. split; [reflexivity|]. split; [reflexivity|].
  apply Forall2_fmap, Forall_Forall2_diag, Forall_forall.
  intros ex _. by rewrite set_gold_labels_closed_form.
Qed.

Lemma load_data_split_relabel_witness :
  ∃ docs1 docs2,
    load_data_split toy_corpus "train" ["DET"] None = Some docs1 ∧
    load_data_split toy_corpus "train" ["NOUN"] None = Some docs2 ∧
    Forall2 (fun d1 d2 => fst <$> set_gold_labels d1 ["NOUN"] = Some d2) docs1 docs2.
Proof.
  apply (load_data_split_relabel toy_corpus "train" ["DET"] ["NOUN"] None toy_data).
  reflexivity.
Defined.

(** ** The labeling pass *)

(** X12.  The pass can be run in batches: on a concatenation of two lists
    of documents it does what running it on the first list and then, in the
    store that leaves, on the second list does, and it raises what the
    first failing batch raises. *)
Theorem tag_all_batches (pre post : list loc) (lfs : list labeling_function)
    (h : store) :
  tag_all (pre ++ post) lfs h =
    match tag_all pre lfs h with
    | Returns h1 _ =>
        match tag_all post lfs h1 with
        | Returns h2 _ => Returns h2 (pre ++ post)
        | Raises h2 e => Raises h2 e
        end
    | Raises h1 e => Raises h1 e
    end.
Proof.
  rewrite !tag_all_unfold, tag_docs_app.
  destruct (tag_docs lfs pre h) as [h1 []|h1 e]; [|reflexivity].
  rewrite tag_all_unfold. by destruct (tag_docs lfs post h1).
Qed.

Lemma alter_live (F : Doc → Doc) (h : store) (l : loc) (d : Doc) :
  h !! l = Some d → alter F l h = <[l := F d]> h.
Proof.
  unfold loc in *. intros Hl. apply map_eq. intros j.
  rewrite lookup_alter, lookup_insert.
  case_decide; [by rewrite Hl | reflexivity].
Qed.

Lemma apply_lfs_lf_of (Fs : list (Doc → Doc)) (doc : loc) (h : store) (d : Doc) :
  h !! doc = Some d →
  apply_lfs (lf_of <$> Fs) doc h = Returns (alter (run_all Fs) doc h) doc.
Proof.
  revert h d. induction Fs as [|F Fs IH]; intros h d Hd.
  - simpl. rewrite (alter_live _ _ _ _ Hd). simpl. by rewrite insert_id.
  - rewrite fmap_cons, apply_lfs_cons. unfold lf_of at 1. rewrite Hd.
    rewrite (IH _ (F d)) by apply lookup_insert_eq.
    f_equal. rewrite (alter_live _ h _ _ Hd).
    rewrite (alter_live _ _ _ (F d)) by apply lookup_insert_eq.
    by rewrite insert_insert_eq.
Qed.

(** X13.  With labeling functions that rewrite the document they are given
    by a transformation of its value and return it, on live documents the
    pass never raises, and leaves the store in which each listed document
    was rewritten by the transformations in list order, once per occurrence
    of the document in the list; documents not listed are left as they
    are. *)
Theorem tag_all_lf_of (Fs : list (Doc → Doc)) (docs : list loc) (h : store) :
  Forall (fun l => is_Some (h !! l)) docs →
  tag_all docs (lf_of <$> Fs) h = Returns (rewrite_docs Fs h docs) docs ∧
  ∀ l, l ∉ docs → rewrite_docs Fs h docs !! l = h !! l.
Proof.
  intros Hlive. split.
  - rewrite tag_all_unfold.
    assert (H : tag_docs (lf_of <$> Fs) docs h = Returns (rewrite_docs Fs h docs) ()).
    { revert h Hlive. induction docs as [|doc rest IH]; intros h Hlive; [reflexivity|].
      apply Forall_cons in Hlive as [[d Hd] Hrest].
      rewrite tag_docs_cons, (apply_lfs_lf_of _ _ _ _ Hd).
      apply IH. eapply Forall_impl; [exact Hrest|].
      intros l Hl. simpl in *. rewrite lookup_alter.
      case_decide; [subst; by apply fmap_is_Some | done]. }
    by rewrite H.
  - clear Hlive. revert h. induction docs as [|doc rest IH]; intros h l Hl; [reflexivity|].
    apply not_elem_of_cons in Hl as [Hne Hl].
    unfold rewrite_docs in *. simpl. rewrite IH by done.
    by rewrite lookup_alter_ne.
Qed.

Lemma tag_all_lf_of_witness :
  tag_all [0; 0] (lf_of <$> [annotate "A"; annotate "B"]) one_doc =
    Returns (rewrite_docs [annotate "A"; annotate "B"] one_doc [0; 0]) [0; 0] ∧
  ∀ l, l ∉ [0; 0] →
    rewrite_docs [annotate "A"; annotate "B"] one_doc [0; 0] !! l = one_doc !! l.
Proof.
  apply (tag_all_lf_of [annotate "A"; annotate "B"] [0; 0] one_doc).
  repeat (constructor; [eexists; vm_compute; reflexivity|]). constructor.
Defined.

(** A document listed twice is annotated twice. *)
Lemma tag_all_listed_twice :
  view (tag_all [0; 0] (lf_of <$> [annotate "A"; annotate "B"]) one_doc) =
    Some [ Some (mkDoc ["DET"] [mkSpan 0 1 "A"; mkSpan 0 1 "B";
                                mkSpan 0 1 "A"; mkSpan 0 1 "B"]);
           Some (mkDoc ["DET"] [mkSpan 0 1 "A"; mkSpan 0 1 "B";
                                mkSpan 0 1 "A"; mkSpan 0 1 "B"]) ].
Proof. by vm_compute. Qed.

(** X14.  Whatever two labeling functions [f] and [g] return, in place or
    not, the pass with [f; g] has the effects of mapping "f, then g" over
    the documents, [g] called on what [f] returned: the same store at the
    end, and the same exception if a call raises.  Only the value returned
    differs: the map returns what [g] returned, the pass the documents it
    was given. *)
Theorem tag_all_effects (f g : labeling_function) (docs : list loc) (h : store) :
  effects (tag_all docs [f; g] h) = effects (spec_tag_all_fg f g docs h).
Proof.
  rewrite tag_all_unfold.
  transitivity (effects (tag_docs [f; g] docs h)).
  { by destruct (tag_docs [f; g] docs h). }
  unfold spec_tag_all_fg.
  revert h. induction docs as [|doc rest IH]; intros h; [reflexivity|].
  rewrite tag_docs_cons, !apply_lfs_cons. cbn [spec_map_docs apply_lfs].
  unfold mbind, M_bind, mret, M_ret in *.
  destruct (f doc h) as [h1 doc1|h1 e]; [|reflexivity].
  destruct (g doc1 h1) as [h2 doc2|h2 e]; [|reflexivity].
  rewrite IH.
  by destruct (spec_map_docs
                 (fun doc0 h0 => match f doc0 h0 with
                                 | Returns h' a => g a h'
                                 | Raises h' e => Raises h' e
                                 end) rest h2).
Qed.
